(** * farhandigital: blog path derivation, RSS items and post ordering

    A shallow embedding of the blog utilities of the site:

    - [src/utils/blog/getPostPath.ts]: [getPostPath] and [getPostSlug];
    - [src/config.ts]: the [SITE] configuration record;
    - [src/content.config.ts]: the schema of the [blog] collection;
    - [src/pages/rss.xml.ts]: the items of the RSS feed.

    Identifiers are JavaScript strings.  They are represented by
    [string], the bytes of their UTF-8 encoding: the only characters the
    code inspects are ['/'], ['.'], ['m'] and ['d'], all ASCII, and an
    ASCII byte never occurs inside the encoding of another character, so
    splitting and suffix matching agree with their UTF-16 counterparts.
    Dates are their time value, an integer number of milliseconds since
    the epoch ([z.date()] rejects invalid dates). *)

From Stdlib Require Import Strings.String Strings.Ascii.
From Stdlib Require Import Lists.List.
From Stdlib Require Import ZArith Lia Bool.
From Stdlib Require Import Sorting.Sorted Sorting.Permutation.
Import ListNotations.

Local Open Scope list_scope.
Local Open Scope string_scope.

(** ** Data model *)

(** A [Date] is its time value in milliseconds. *)
Definition Date : Type := Z.
Bind Scope Z_scope with Date.

(** [new Date(d)] for a [Date] argument copies the time value. *)
Definition new_Date (d : Date) : Date := d.

(** A field declared [.optional().nullable()]: absent, [null] or a value. *)
Inductive Nullish (A : Type) : Type :=
| Undefined : Nullish A
| Null : Nullish A
| Value : A -> Nullish A.

Arguments Undefined {A}.
Arguments Null {A}.
Arguments Value {A} _.

(** The [??] operator: the right operand when the left one is
    [undefined] or [null]. *)
Definition nullish_coalesce {A : Type} (v : Nullish A) (d : A) : A :=
  match v with
  | Value a => a
  | Undefined | Null => d
  end.

(** The payload of a blog entry, as the schema of the collection types it
    ([ogImage] is kept as the string form of the union). *)
Record BlogData : Type := mkBlogData {
  author : string;
  pubDatetime : Date;
  modDatetime : Nullish Date;
  title : string;
  featured : option bool;
  draft : option bool;
  tags : list string;
  ogImage : option string;
  description : string;
  canonicalURL : option string;
  hideEditPost : option bool;
  timezone : option string
}.

(** [CollectionEntry<"blog">]: the fields the utilities read. *)
Record CollectionEntry : Type := mkEntry {
  id : string;
  data : BlogData
}.

(** ** JavaScript string primitives used by [getPostPath.ts] *)

Definition slash : ascii := "/"%char.

(** [s.split("/")] always has a first segment; [split_ne] returns it
    together with the segments that follow. *)
Fixpoint split_ne (s : string) : string * list string :=
  match s with
  | EmptyString => (EmptyString, [])
  | String c s' =>
      let (seg, rest) := split_ne s' in
      if Ascii.eqb c slash then (EmptyString, seg :: rest)
      else (String c seg, rest)
  end.

(** [s.split("/")]. *)
Definition split (s : string) : list string :=
  let (seg, rest) := split_ne s in seg :: rest.

(** [a.pop()]: the last element, [undefined] (here [None]) on the empty
    array. *)
Fixpoint pop (a : list string) : option string :=
  match a with
  | [] => None
  | [x] => Some x
  | _ :: a' => pop a'
  end.

(** [s.replace(/\.md$/, "")]: the regular expression is tried at each
    position from the left; with [$] and no [m] flag it matches only
    where the rest of the input is exactly [".md"], and the match is
    replaced by the empty string. *)
Fixpoint replace_md (s : string) : string :=
  if String.eqb s ".md" then EmptyString
  else match s with
       | EmptyString => EmptyString
       | String c s' => String c (replace_md s')
       end.

(** [v?.replace(/\.md$/, "")]: [undefined] is passed through. *)
Definition opt_replace_md (v : option string) : option string :=
  match v with
  | None => None
  | Some s => Some (replace_md s)
  end.

(** [v || d] on a string-or-undefined [v]: [undefined] and the empty
    string are falsy. *)
Definition or_else (v : option string) (d : string) : string :=
  match v with
  | None => d
  | Some EmptyString => d
  | Some s => s
  end.

(** ** [getPostPath.ts] *)

Definition getPostPath (post : CollectionEntry) : string :=
  let slug := or_else (opt_replace_md (pop (split (id post)))) (id post) in
  "/blog/" ++ slug.

Definition getPostSlug (post : CollectionEntry) : string :=
  or_else (opt_replace_md (pop (split (id post)))) (id post).

(** ** Words of the specification about identifiers

    These follow the prose of the specification, not the code; the
    theorems below compare them with what [getPostPath] computes. *)

(** [contains c s]: the character [c] occurs in [s]. *)
Fixpoint contains (c : ascii) (s : string) : bool :=
  match s with
  | EmptyString => false
  | String c' s' => Ascii.eqb c' c || contains c s'
  end.

(** The identifier's last segment: what follows the last ['/'], the whole
    identifier when it has none. *)
Fixpoint last_segment (s : string) : string :=
  match s with
  | EmptyString => EmptyString
  | String c s' =>
      if contains slash s' then last_segment s'
      else if Ascii.eqb c slash then s' else s
  end.

(** [ends_with suf s]: [s] is some string followed by [suf]. *)
Fixpoint ends_with (suf s : string) : bool :=
  String.eqb s suf ||
  match s with
  | EmptyString => false
  | String _ s' => ends_with suf s'
  end.

(** A trailing [".md"] removed when there is one. *)
Definition strip_md_suffix (s : string) : string :=
  if ends_with ".md" s then substring 0 (String.length s - 3) s else s.

(** A trailing file extension of any kind removed: the last ['.'] of the
    segment and what follows it. *)
Fixpoint strip_extension (s : string) : string :=
  match s with
  | EmptyString => EmptyString
  | String c s' =>
      if Ascii.eqb c "."%char && negb (contains "."%char s') then EmptyString
      else String c (strip_extension s')
  end.

(** [with_id post s]: the entry [post] under the identifier [s]. *)
Definition with_id (post : CollectionEntry) (s : string) : CollectionEntry :=
  mkEntry s (data post).

(** ** [config.ts] *)

Record EditPost : Type := mkEditPost {
  enabled : bool;
  text : string;
  url : string
}.

Record SiteConfig : Type := mkSite {
  website : string;
  site_author : string;
  profile : string;
  site_title : string;
  site_description : string;
  blogTitle : string;
  blogDescription : string;
  site_ogImage : string;
  lightAndDarkMode : bool;
  postPerIndex : Z;
  postPerPage : Z;
  scheduledPostMargin : Z;
  showArchives : bool;
  showBackButton : bool;
  editPost : EditPost;
  dynamicOgImage : bool;
  dir : string;
  lang : string;
  site_timezone : string
}.

Definition SITE : SiteConfig := {|
  website := "https://farhandigital.id";
  site_author := "Farhan";
  profile := "https://farhandigital.id/";
  site_title := "Farhan Digital";
  site_description :=
    "Professional web development services for small businesses";
  blogTitle := "Farhan Digital | Blog";
  blogDescription :=
    "Eternal archive of my thoughts, experiences, and learnings on web development, programming, and technology.";
  site_ogImage := "brand-logo.png";
  lightAndDarkMode := true;
  postPerIndex := 4;
  postPerPage := 4;
  scheduledPostMargin := 15 * 60 * 1000;
  showArchives := true;
  showBackButton := true;
  editPost := {| enabled := false;
                 text := "Edit page";
                 url := "https://github.com/yourname/your-blog/edit/main/" |};
  dynamicOgImage := true;
  dir := "ltr";
  lang := "en";
  site_timezone := "UTC"
|}.

(** ** [content.config.ts]: the schema of the [blog] collection *)

(** A value of the parsed front matter of a markdown file. *)
#[local] Set Warnings "-register-all".
Inductive Raw : Type :=
| RUndefined : Raw
| RNull : Raw
| RBool : bool -> Raw
| RNumber : Z -> Raw
| RString : string -> Raw
| RDate : Date -> Raw
| RArray : list Raw -> Raw.
#[local] Set Warnings "register-all".

(** The outcome of validating a value against a schema. *)
Inductive Parsed (A : Type) : Type :=
| Ok : A -> Parsed A
| Invalid : string -> Parsed A.

Arguments Ok {A} _.
Arguments Invalid {A} _.

Definition bind {A B : Type} (m : Parsed A) (k : A -> Parsed B) : Parsed B :=
  match m with
  | Ok a => k a
  | Invalid issue => Invalid issue
  end.

Notation "x <- m ;; k" := (bind m (fun x => k))
  (at level 61, m at next level, right associativity).

(** A schema validates a raw value into a typed one. *)
Definition Schema (A : Type) : Type := Raw -> Parsed A.

Definition z_string : Schema string := fun v =>
  match v with
  | RString s => Ok s
  | _ => Invalid "Expected string"
  end.

Definition z_boolean : Schema bool := fun v =>
  match v with
  | RBool b => Ok b
  | _ => Invalid "Expected boolean"
  end.

Definition z_date : Schema Date := fun v =>
  match v with
  | RDate d => Ok d
  | _ => Invalid "Expected date"
  end.

Fixpoint parse_all {A : Type} (elem : Schema A) (l : list Raw)
  : Parsed (list A) :=
  match l with
  | [] => Ok []
  | v :: l' => a <- elem v ;; r <- parse_all elem l' ;; Ok (a :: r)
  end.

(** [z.array(elem)]: any array, the empty one included, whose elements
    all validate. *)
Definition z_array {A : Type} (elem : Schema A) : Schema (list A) := fun v =>
  match v with
  | RArray l => parse_all elem l
  | _ => Invalid "Expected array"
  end.

(** [schema.optional()]. *)
Definition z_optional {A : Type} (schema : Schema A) : Schema (option A) :=
  fun v =>
  match v with
  | RUndefined => Ok None
  | _ => a <- schema v ;; Ok (Some a)
  end.

(** [schema.optional().nullable()]. *)
Definition z_optional_nullable {A : Type} (schema : Schema A)
  : Schema (Nullish A) := fun v =>
  match v with
  | RNull => Ok Null
  | RUndefined => Ok Undefined
  | _ => a <- schema v ;; Ok (Value a)
  end.

(** [schema.default(d)]: [d] stands in for an absent ([undefined]) input
    only; any other input goes through [schema]. *)
Definition z_default {A : Type} (schema : Schema A) (d : A) : Schema A :=
  fun v =>
  match v with
  | RUndefined => Ok d
  | _ => schema v
  end.

(** The front matter of a file: its keys with their values. *)
Definition FrontMatter : Type := list (string * Raw).

(** The value under a key; [undefined] for a key that is not there. *)
Fixpoint field (fm : FrontMatter) (key : string) : Raw :=
  match fm with
  | [] => RUndefined
  | (k, v) :: fm' => if String.eqb k key then v else field fm' key
  end.

(** The [z.object] of the [blog] collection. *)
Definition blog_schema (fm : FrontMatter) : Parsed BlogData :=
  author <- z_default z_string "Farhan" (field fm "author") ;;
  pubDatetime <- z_date (field fm "pubDatetime") ;;
  modDatetime <- z_optional_nullable z_date (field fm "modDatetime") ;;
  title <- z_string (field fm "title") ;;
  featured <- z_optional z_boolean (field fm "featured") ;;
  draft <- z_optional z_boolean (field fm "draft") ;;
  tags <- z_default (z_array z_string) ["others"] (field fm "tags") ;;
  ogImage <- z_optional z_string (field fm "ogImage") ;;
  description <- z_string (field fm "description") ;;
  canonicalURL <- z_optional z_string (field fm "canonicalURL") ;;
  hideEditPost <- z_optional z_boolean (field fm "hideEditPost") ;;
  timezone <- z_optional z_string (field fm "timezone") ;;
  Ok (mkBlogData author pubDatetime modDatetime title featured draft tags
        ogImage description canonicalURL hideEditPost timezone).

(** Loading one file: the entry under its identifier, when its front
    matter validates. *)
Definition load_entry (ident : string) (fm : FrontMatter)
  : Parsed CollectionEntry :=
  d <- blog_schema fm ;; Ok (mkEntry ident d).

(** ** [pages/rss.xml.ts] *)

Module Rss.

(** An item handed to [rss]. *)
Record Item : Type := mkItem {
  link : string;
  title : string;
  description : string;
  pubDate : Date
}.

(** The options handed to [rss]. *)
Record Options : Type := mkOptions {
  feed_title : string;
  feed_description : string;
  site : string;
  items : list Item
}.

End Rss.

(** The callback mapped over the sorted posts. *)
Definition GET_item (post : CollectionEntry) : Rss.Item :=
  {| Rss.link := getPostPath post;
     Rss.title := title (data post);
     Rss.description := description (data post);
     Rss.pubDate :=
       new_Date (nullish_coalesce (modDatetime (data post))
                                  (pubDatetime (data post))) |}.

Section Feed.

(** [getSortedPosts] is imported from [utils/blog/getSortedPosts]; the
    feed is described for whatever sorter is plugged in. *)
Variable getSortedPosts : list CollectionEntry -> list CollectionEntry.

(** [GET]: the options passed to [rss] for the loaded collection
    [posts]. *)
Definition GET (posts : list CollectionEntry) : Rss.Options :=
  let sortedPosts := getSortedPosts posts in
  {| Rss.feed_title := blogTitle SITE;
     Rss.feed_description := blogDescription SITE;
     Rss.site := website SITE;
     Rss.items := map GET_item sortedPosts |}.

End Feed.

(** ** The sorter *)

(** The effective date of the sorter: [modDatetime] if present, else
    [pubDatetime]. *)
Definition effective_date (post : CollectionEntry) : Date :=
  nullish_coalesce (modDatetime (data post)) (pubDatetime (data post)).

(** The later of the publish date and the modification date. *)
Definition later_date (post : CollectionEntry) : Date :=
  match modDatetime (data post) with
  | Value m => Z.max (pubDatetime (data post)) m
  | Undefined | Null => pubDatetime (data post)
  end.

(** [insert_post x l] puts [x] in front of the first entry that is not
    more recent than [x]. *)
Fixpoint insert_post (x : CollectionEntry) (l : list CollectionEntry)
  : list CollectionEntry :=
  match l with
  | [] => [x]
  | y :: l' =>
      if (effective_date y <=? effective_date x)%Z then x :: y :: l'
      else y :: insert_post x l'
  end.

Fixpoint sort_posts (l : list CollectionEntry) : list CollectionEntry :=
  match l with
  | [] => []
  | x :: l' => insert_post x (sort_posts l')
  end.

(** Modelled from the spec: [src/utils/blog/getSortedPosts.ts] and the
    [postFilter] it applies are not among the sources.  Following
    section 4.2, the entries are optionally filtered ([keep], the test on
    drafts and scheduled posts) and ordered by effective date descending,
    entries with the same effective date keeping their input order. *)
Definition getSortedPosts (keep : CollectionEntry -> bool)
  (posts : list CollectionEntry) : list CollectionEntry :=
  sort_posts (filter keep posts).

(** Modelled from the spec: the optional filter of section 4.2, which
    drops the entries marked [draft: true] and those whose [pubDatetime]
    lies in the future beyond the scheduling margin, at build time
    [now]. *)
Definition postFilter (now : Date) (post : CollectionEntry) : bool :=
  match draft (data post) with
  | Some true => false
  | _ => (pubDatetime (data post) <=? now + scheduledPostMargin SITE)%Z
  end.

(** Non-increasing in effective date. *)
Definition date_desc (a b : CollectionEntry) : Prop :=
  (effective_date b <= effective_date a)%Z.

(** The entries of [l] whose effective date is [d], in the order of [l]. *)
Definition dated (d : Date) (l : list CollectionEntry)
  : list CollectionEntry :=
  filter (fun e => (effective_date e =? d)%Z) l.

(** ** Sample entries *)

(** A payload that validates against the schema, for concrete entries. *)
Definition sample_data : BlogData :=
  {| author := "Farhan";
     pubDatetime := 1704067200000%Z;
     modDatetime := Undefined;
     title := "My post";
     featured := None;
     draft := None;
     tags := ["others"];
     ogImage := None;
     description := "A post";
     canonicalURL := None;
     hideEditPost := None;
     timezone := None |}.

(** The entry with identifier [s] and the sample payload. *)
Definition entry_of_id (s : string) : CollectionEntry := mkEntry s sample_data.

(** The sample entry published at [pub] and modified at [md]. *)
Definition entry_dated (s : string) (pub : Date) (md : Nullish Date)
  : CollectionEntry :=
  mkEntry s
    {| author := "Farhan";
       pubDatetime := pub;
       modDatetime := md;
       title := "My post";
       featured := None;
       draft := None;
       tags := ["others"];
       ogImage := None;
       description := "A post";
       canonicalURL := None;
       hideEditPost := None;
       timezone := None |}.

(** A front matter that gives the required fields and no [tags]. *)
Definition sample_front_matter : FrontMatter :=
  [ ("title", RString "My post");
    ("description", RString "A post");
    ("pubDatetime", RDate 1704067200000%Z) ].

(** ** [astro.config.ts]: the filter of the sitemap integration *)

(** [(page) => !page.endsWith("/blog/archives/")]: [true] keeps the
    page in the sitemap. *)
Definition sitemap_filter (page : string) : bool :=
  negb (ends_with "/blog/archives/" page).

(** ** Auxiliary notions for the properties *)

(** The number of occurrences of [c] in [s]. *)
Fixpoint occurrences (c : ascii) (s : string) : nat :=
  match s with
  | EmptyString => 0
  | String c' s' =>
      (if Ascii.eqb c' c then 1 else 0) + occurrences c s'
  end.

(** The keys the [z.object] of the collection reads. *)
Definition blog_keys : list string :=
  [ "author"; "pubDatetime"; "modDatetime"; "title"; "featured"; "draft";
    "tags"; "ogImage"; "description"; "canonicalURL"; "hideEditPost";
    "timezone" ].

(** [with_tags d l]: the payload [d] with the tags [l]. *)
Definition with_tags (d : BlogData) (l : list string) : BlogData :=
  mkBlogData (author d) (pubDatetime d) (modDatetime d) (title d)
    (featured d) (draft d) l (ogImage d) (description d) (canonicalURL d)
    (hideEditPost d) (timezone d).

(** Most recent publication date first. *)
Definition pubDate_desc (a b : Rss.Item) : Prop :=
  (Rss.pubDate b <= Rss.pubDate a)%Z.

(** * Properties *)

(** ** Strings *)

Lemma length_append (a b : string) :
  String.length (a ++ b) = String.length a + String.length b.
Proof.
  induction a as [|x a IH]; simpl; [reflexivity | now rewrite IH].
Qed.

Lemma contains_append (c : ascii) (a b : string) :
  contains c (a ++ b) = contains c a || contains c b.
Proof.
  induction a as [|x a IH]; simpl; [reflexivity|].
  now rewrite IH, orb_assoc.
Qed.

(** ** [split] and [pop] *)

Lemma split_ne_no_sep (s : string) :
  contains slash s = false -> split_ne s = (s, []).
Proof.
  induction s as [|c s IH]; simpl; [reflexivity|].
  intros H. apply orb_false_elim in H as [Hc Hs].
  rewrite (IH Hs), Hc. reflexivity.
Qed.

Lemma split_ne_sep (s : string) :
  contains slash s = true -> snd (split_ne s) <> [].
Proof.
  induction s as [|c s IH]; simpl; [discriminate|].
  intros H. destruct (split_ne s) as [seg rest] eqn:E.
  destruct (Ascii.eqb c slash) eqn:Hc; simpl in *.
  - discriminate.
  - apply IH, H.
Qed.

Lemma pop_cons (x : string) (a : list string) :
  a <> [] -> pop (x :: a) = pop a.
Proof.
  destruct a; [congruence | reflexivity].
Qed.

(** The array [split] returns is never empty. *)
Lemma split_nonempty (s : string) : split s <> [].
Proof.
  unfold split. destruct (split_ne s). discriminate.
Qed.

(** A string without separator is its own single segment. *)
Lemma split_no_sep (s : string) :
  contains slash s = false -> split s = [s].
Proof.
  intros H. unfold split. now rewrite (split_ne_no_sep s H).
Qed.

(** [pop] after [split] is the last segment in the sense of the
    specification. *)
Lemma pop_split (s : string) : pop (split s) = Some (last_segment s).
Proof.
  unfold split. induction s as [|c s IH]; [reflexivity|].
  cbn [split_ne last_segment].
  destruct (contains slash s) eqn:Hs.
  - pose proof (split_ne_sep s Hs) as Hne.
    destruct (split_ne s) as [seg rest]. simpl in Hne.
    destruct (Ascii.eqb c slash).
    + rewrite <- IH. now destruct rest.
    + rewrite <- IH. rewrite !pop_cons by assumption. reflexivity.
  - rewrite (split_ne_no_sep s Hs).
    destruct (Ascii.eqb c slash); reflexivity.
Qed.

Lemma last_segment_no_sep (s : string) :
  contains slash s = false -> last_segment s = s.
Proof.
  destruct s as [|c s]; simpl; [reflexivity|].
  intros H. apply orb_false_elim in H as [Hc Hs].
  now rewrite Hs, Hc.
Qed.

(** What follows the last separator is the last segment. *)
Lemma last_segment_append (pre seg : string) :
  contains slash seg = false ->
  last_segment (pre ++ String slash seg) = seg.
Proof.
  intros Hseg. induction pre as [|c pre IH]; simpl.
  - now rewrite Hseg.
  - rewrite contains_append. simpl.
    rewrite orb_true_r. exact IH.
Qed.

Lemma last_segment_suffix (s : string) :
  exists pre, s = pre ++ last_segment s.
Proof.
  induction s as [|c s [pre IH]]; simpl.
  - now exists "".
  - destruct (contains slash s).
    + exists (String c pre). simpl. now rewrite <- IH.
    + destruct (Ascii.eqb c slash).
      * now exists (String c "").
      * now exists "".
Qed.

Lemma contains_last_segment (s : string) :
  contains slash (last_segment s) = false.
Proof.
  induction s as [|c s IH]; simpl; [reflexivity|].
  destruct (contains slash s) eqn:Hs; [exact IH|].
  destruct (Ascii.eqb c slash) eqn:Hc; simpl; [exact Hs|].
  now rewrite Hc, Hs.
Qed.

(** ** The regular expression [/\.md$/] *)

Lemma replace_md_cons (c : ascii) (s : string) :
  replace_md (String c s) =
  if String.eqb (String c s) ".md" then "" else String c (replace_md s).
Proof. reflexivity. Qed.

Lemma ends_with_cons (suf : string) (c : ascii) (s : string) :
  ends_with suf (String c s) =
  String.eqb (String c s) suf || ends_with suf s.
Proof. reflexivity. Qed.

Lemma ends_with_nil (suf : string) :
  ends_with suf "" = String.eqb "" suf.
Proof. destruct suf; reflexivity. Qed.

Lemma ends_with_length (suf s : string) :
  ends_with suf s = true -> String.length suf <= String.length s.
Proof.
  induction s as [|c s IH].
  - rewrite ends_with_nil. intros H.
    apply String.eqb_eq in H. subst suf. simpl. lia.
  - rewrite ends_with_cons. intros H.
    apply orb_true_iff in H as [H | H].
    + apply String.eqb_eq in H. subst suf. lia.
    + specialize (IH H). simpl. lia.
Qed.

Lemma ends_with_append (suf pre s : string) :
  ends_with suf s = true -> ends_with suf (pre ++ s) = true.
Proof.
  intros H. induction pre as [|c pre IH]; [exact H|].
  cbn [append]. rewrite ends_with_cons, IH. apply orb_true_r.
Qed.

Lemma ends_with_refl (suf : string) : ends_with suf suf = true.
Proof.
  destruct suf; simpl; [reflexivity|].
  now rewrite Ascii.eqb_refl, String.eqb_refl.
Qed.

(** [ends_with] is what its name says. *)
Lemma ends_with_spec (suf s : string) :
  ends_with suf s = true <-> exists t, s = t ++ suf.
Proof.
  split.
  - induction s as [|c s IH].
    + rewrite ends_with_nil. intros H.
      apply String.eqb_eq in H. now exists "".
    + rewrite ends_with_cons. intros H.
      apply orb_true_iff in H as [H | H].
      * apply String.eqb_eq in H. now exists "".
      * destruct (IH H) as [t ->]. now exists (String c t).
  - intros [t ->]. apply ends_with_append, ends_with_refl.
Qed.

(** The scan of the regular expression removes a trailing [".md"] and
    nothing else. *)
Lemma replace_md_strip (s : string) : replace_md s = strip_md_suffix s.
Proof.
  unfold strip_md_suffix. induction s as [|c s IH]; [reflexivity|].
  rewrite replace_md_cons, ends_with_cons.
  destruct (String.eqb (String c s) ".md") eqn:E.
  - apply String.eqb_eq in E. now inversion E.
  - rewrite orb_false_l, IH.
    destruct (ends_with ".md" s) eqn:Hs; [|reflexivity].
    apply ends_with_length in Hs. simpl in Hs.
    replace (String.length (String c s) - 3)
      with (S (String.length s - 3)) by (simpl; lia).
    reflexivity.
Qed.

Lemma replace_md_append (t : string) : replace_md (t ++ ".md") = t.
Proof.
  induction t as [|c t IH]; [reflexivity|].
  cbn [append]. rewrite replace_md_cons, IH.
  destruct (String.eqb (String c (t ++ ".md")) ".md") eqn:E; [|reflexivity].
  apply String.eqb_eq in E. apply (f_equal String.length) in E.
  simpl in E. rewrite length_append in E. simpl in E. lia.
Qed.

Lemma replace_md_other (s : string) :
  ends_with ".md" s = false -> replace_md s = s.
Proof.
  intros H. rewrite replace_md_strip. unfold strip_md_suffix.
  now rewrite H.
Qed.

Lemma strip_md_suffix_append (t : string) : strip_md_suffix (t ++ ".md") = t.
Proof.
  rewrite <- replace_md_strip. apply replace_md_append.
Qed.

(** The result is empty on the empty string and on [".md"] only. *)
Lemma replace_md_empty (s : string) :
  replace_md s = "" <-> s = "" \/ s = ".md".
Proof.
  split.
  - destruct s as [|c s]; [now left|].
    rewrite replace_md_cons.
    destruct (String.eqb (String c s) ".md") eqn:E; [|discriminate].
    apply String.eqb_eq in E. now right.
  - intros [-> | ->]; reflexivity.
Qed.

Lemma contains_replace_md (c : ascii) (s : string) :
  contains c s = false -> contains c (replace_md s) = false.
Proof.
  induction s as [|x s IH]; [reflexivity|].
  rewrite replace_md_cons.
  destruct (String.eqb (String x s) ".md"); [reflexivity|].
  simpl. intros H. apply orb_false_elim in H as [Hx Hs].
  now rewrite Hx, IH.
Qed.

(** ** [getPostPath] and [getPostSlug] *)

(** The two functions in terms of the words of the specification: the
    last segment without a trailing [".md"], the full identifier when
    that is empty. *)
Lemma getPostSlug_last_segment (post : CollectionEntry) :
  getPostSlug post =
  if String.eqb (strip_md_suffix (last_segment (id post))) ""
  then id post
  else strip_md_suffix (last_segment (id post)).
Proof.
  unfold getPostSlug. rewrite pop_split. cbn [opt_replace_md].
  rewrite replace_md_strip.
  destruct (strip_md_suffix (last_segment (id post))); reflexivity.
Qed.

Lemma getPostPath_last_segment (post : CollectionEntry) :
  getPostPath post =
  "/blog/" ++
  (if String.eqb (strip_md_suffix (last_segment (id post))) ""
   then id post
   else strip_md_suffix (last_segment (id post))).
Proof.
  rewrite <- getPostSlug_last_segment. reflexivity.
Qed.

Lemma eqb_empty_false (s : string) : s <> "" -> String.eqb s "" = false.
Proof. intros H. now apply String.eqb_neq. Qed.

(** C1 (amended). For every entry whose identifier is [pre/seg] with no
    ['/'] in [seg], [getPostPath] returns ["/blog/"] followed by [seg]
    with a trailing [".md"] removed, whenever that name is not empty;
    [".md"] is the only suffix that is removed. *)
Theorem getPostPath_with_separator (post : CollectionEntry)
  (pre seg : string) :
  id post = pre ++ "/" ++ seg ->
  contains slash seg = false ->
  strip_md_suffix seg <> "" ->
  contains slash (id post) = true /\
  last_segment (id post) = seg /\
  getPostPath post = "/blog/" ++ strip_md_suffix seg.
Proof.
  intros Hid Hseg Hne.
  assert (Hlast : last_segment (id post) = seg).
  { rewrite Hid. now apply last_segment_append. }
  repeat split.
  - rewrite Hid, contains_append. simpl. apply orb_true_r.
  - exact Hlast.
  - rewrite getPostPath_last_segment, Hlast.
    now rewrite (eqb_empty_false _ Hne).
Qed.

Lemma getPostPath_with_separator_witness :
  getPostPath (entry_of_id "articles/my-post.md") = "/blog/my-post".
Proof.
  apply (getPostPath_with_separator
           (entry_of_id "articles/my-post.md") "articles" "my-post.md").
  - reflexivity.
  - reflexivity.
  - vm_compute. discriminate.
Defined.

(** C1 as stated fails: an extension other than [".md"] stays in the
    path. *)
Lemma getPostPath_keeps_other_extension :
  let post := entry_of_id "articles/my-post.mdx" in
  contains slash (id post) = true /\
  last_segment (id post) = "my-post.mdx" /\
  strip_extension (last_segment (id post)) = "my-post" /\
  getPostPath post = "/blog/my-post.mdx" /\
  getPostPath post <> "/blog/" ++ strip_extension (last_segment (id post)).
Proof.
  vm_compute. repeat split; discriminate.
Qed.

(** C4 (amended). For every entry whose identifier contains no ['/'],
    [getPostPath] returns ["/blog/"] followed by the identifier with a
    trailing [".md"] removed, except for the identifier [".md"] itself,
    whose path is ["/blog/.md"]. *)
Theorem getPostPath_without_separator (post : CollectionEntry) :
  contains slash (id post) = false ->
  (id post <> ".md" ->
   getPostPath post = "/blog/" ++ strip_md_suffix (id post)) /\
  (id post = ".md" -> getPostPath post = "/blog/.md").
Proof.
  intros Hsep. rewrite getPostPath_last_segment.
  rewrite (last_segment_no_sep _ Hsep). split.
  - intros Hne.
    destruct (String.eqb (strip_md_suffix (id post)) "") eqn:E;
      [|reflexivity].
    apply String.eqb_eq in E. rewrite E.
    rewrite <- replace_md_strip in E.
    apply replace_md_empty in E as [E | E]; [now rewrite E | contradiction].
  - intros ->. reflexivity.
Qed.

Lemma getPostPath_without_separator_witness :
  getPostPath (entry_of_id "my-post") = "/blog/my-post" /\
  getPostPath (entry_of_id "my-post.md") = "/blog/my-post" /\
  getPostPath (entry_of_id ".md") = "/blog/.md".
Proof.
  split; [|split].
  - apply (getPostPath_without_separator (entry_of_id "my-post"));
      [reflexivity | vm_compute; discriminate].
  - apply (getPostPath_without_separator (entry_of_id "my-post.md"));
      [reflexivity | vm_compute; discriminate].
  - apply (getPostPath_without_separator (entry_of_id ".md"));
      reflexivity.
Defined.

(** C4 as stated fails: on the identifier [".md"] the name left by the
    removal is empty and the full identifier is used; and an extension
    other than [".md"] is not removed. *)
Lemma bare_identifier_not_stripped :
  (let post := entry_of_id ".md" in
   contains slash (id post) = false /\
   strip_md_suffix (id post) = "" /\
   strip_extension (id post) = "" /\
   getPostPath post = "/blog/.md" /\
   getPostPath post <> "/blog/" ++ strip_md_suffix (id post)) /\
  (let post := entry_of_id "my-post.txt" in
   contains slash (id post) = false /\
   strip_extension (id post) = "my-post" /\
   getPostPath post = "/blog/my-post.txt" /\
   getPostPath post <> "/blog/" ++ strip_extension (id post)).
Proof.
  vm_compute. repeat split; discriminate.
Qed.

(** C5 (amended). The extension the code removes is [".md"] and no
    other.  The last segment with a trailing [".md"] removed is empty
    exactly when the last segment is empty or is [".md"]; then
    [getPostPath] returns ["/blog/"] followed by the full identifier,
    which is the case of every identifier that ends in ['/'].  When it
    is not empty, it is that name which follows ["/blog/"], not the full
    identifier. *)
Theorem getPostPath_fallback (post : CollectionEntry) :
  (strip_md_suffix (last_segment (id post)) = "" ->
   getPostPath post = "/blog/" ++ id post) /\
  (forall pre, id post = pre ++ "/" ->
   last_segment (id post) = "" /\
   getPostPath post = "/blog/" ++ id post) /\
  (strip_md_suffix (last_segment (id post)) = "" <->
   last_segment (id post) = "" \/ last_segment (id post) = ".md") /\
  (strip_md_suffix (last_segment (id post)) <> "" ->
   getPostPath post = "/blog/" ++ strip_md_suffix (last_segment (id post))).
Proof.
  assert (H : strip_md_suffix (last_segment (id post)) = "" ->
              getPostPath post = "/blog/" ++ id post).
  { intros E. rewrite getPostPath_last_segment, E. reflexivity. }
  split; [exact H|]. split; [|split].
  - intros pre Hid.
    assert (Hlast : last_segment (id post) = "").
    { rewrite Hid. now apply (last_segment_append pre ""). }
    split; [exact Hlast|].
    apply H. now rewrite Hlast.
  - rewrite <- replace_md_strip. apply replace_md_empty.
  - intros Hne. rewrite getPostPath_last_segment.
    now rewrite (eqb_empty_false _ Hne).
Qed.

Lemma getPostPath_fallback_witness :
  getPostPath (entry_of_id "articles/") = "/blog/articles/" /\
  getPostPath (entry_of_id "articles/.md") = "/blog/articles/.md" /\
  getPostPath (entry_of_id "articles/.txt") = "/blog/.txt".
Proof.
  split; [|split].
  - apply (proj1 (proj2 (getPostPath_fallback (entry_of_id "articles/")))
             "articles").
    reflexivity.
  - apply (proj1 (getPostPath_fallback (entry_of_id "articles/.md"))).
    reflexivity.
  - apply (proj2 (proj2 (proj2
             (getPostPath_fallback (entry_of_id "articles/.txt"))))).
    vm_compute. discriminate.
Defined.

(** C5 as stated fails: a last segment that is only an extension other
    than [".md"] is empty once its extension is removed, yet the path is
    built from that segment, not from the full identifier. *)
Lemma fallback_not_for_other_extension :
  let post := entry_of_id "articles/.txt" in
  last_segment (id post) = ".txt" /\
  strip_extension (last_segment (id post)) = "" /\
  getPostPath post = "/blog/.txt" /\
  getPostPath post <> "/blog/" ++ id post.
Proof.
  vm_compute. repeat split; discriminate.
Qed.

(** The slug never holds a separator unless it is the full identifier
    of the fallback. *)
Lemma getPostSlug_cases (post : CollectionEntry) :
  (getPostSlug post = replace_md (last_segment (id post)) /\
   getPostSlug post <> "" /\
   contains slash (getPostSlug post) = false) \/
  (getPostSlug post = id post /\
   (last_segment (id post) = "" \/ last_segment (id post) = ".md")).
Proof.
  unfold getPostSlug. rewrite pop_split. cbn [opt_replace_md].
  destruct (replace_md (last_segment (id post))) as [|c r] eqn:E.
  - right. split; [reflexivity|]. now apply replace_md_empty.
  - left. cbn [or_else]. repeat split; [discriminate|].
    rewrite <- E. apply contains_replace_md, contains_last_segment.
Qed.

Lemma ends_with_last_segment (suf s : string) :
  ends_with suf (last_segment s) = true -> ends_with suf s = true.
Proof.
  intros H. destruct (last_segment_suffix s) as [pre E].
  rewrite E. now apply ends_with_append.
Qed.

Lemma last_segment_length (s : string) :
  String.length (last_segment s) <= String.length s.
Proof.
  destruct (last_segment_suffix s) as [pre E].
  rewrite E at 2. rewrite length_append. lia.
Qed.

(** The slug of a slug, in the words of the specification. *)
Lemma slug_again (post : CollectionEntry) :
  getPostSlug (with_id post (getPostSlug post)) =
  if String.eqb (strip_md_suffix (last_segment (getPostSlug post))) ""
  then getPostSlug post
  else strip_md_suffix (last_segment (getPostSlug post)).
Proof.
  now rewrite getPostSlug_last_segment.
Qed.

Lemma slug_again_only_if (post : CollectionEntry) :
  getPostSlug (with_id post (getPostSlug post)) = getPostSlug post ->
  ends_with ".md" (last_segment (getPostSlug post)) = false \/
  last_segment (getPostSlug post) = ".md".
Proof.
  rewrite slug_again.
  set (s := getPostSlug post). set (t := last_segment s).
  intros H. destruct (ends_with ".md" t) eqn:Ht; [right | now left].
  apply ends_with_spec in Ht as [u Hu].
  rewrite Hu, strip_md_suffix_append in H.
  destruct u as [|c u]; [exact Hu|]. exfalso.
  cbn [String.eqb] in H.
  pose proof (last_segment_length s) as Hlen. fold t in Hlen.
  rewrite Hu, <- H, length_append in Hlen. simpl in Hlen. lia.
Qed.

Lemma slug_again_if (post : CollectionEntry) :
  ends_with ".md" (last_segment (getPostSlug post)) = false \/
  last_segment (getPostSlug post) = ".md" ->
  getPostSlug (with_id post (getPostSlug post)) = getPostSlug post.
Proof.
  rewrite slug_again.
  set (s := getPostSlug post). set (t := last_segment s).
  intros [Ht | Ht].
  - rewrite <- replace_md_strip, (replace_md_other _ Ht).
    destruct (String.eqb t "") eqn:E; [reflexivity|].
    apply String.eqb_neq in E.
    destruct (getPostSlug_cases post) as [(_ & _ & Hsep) | (Hfull & Hseg)].
    + now apply last_segment_no_sep.
    + exfalso. fold s in Hfull. rewrite <- Hfull in Hseg. fold t in Hseg.
      destruct Hseg as [Hseg | Hseg]; [contradiction|].
      rewrite Hseg in Ht. discriminate.
  - rewrite Ht. reflexivity.
Qed.

(** C6 (amended). [getPostPath] and [getPostSlug] are functions of the
    identifier alone, on every identifier.  Deriving the slug of a slug
    gives the slug again exactly when the last segment of the slug does
    not end in [".md"] or is [".md"]; in particular whenever the slug
    does not end in [".md"]. *)
Theorem getPostSlug_idempotent (p q : CollectionEntry) :
  id p = id q ->
  getPostPath p = getPostPath q /\
  getPostSlug p = getPostSlug q /\
  (getPostSlug (with_id p (getPostSlug p)) = getPostSlug p <->
   (ends_with ".md" (last_segment (getPostSlug p)) = false \/
    last_segment (getPostSlug p) = ".md")) /\
  (ends_with ".md" (getPostSlug p) = false ->
   getPostSlug (with_id p (getPostSlug p)) = getPostSlug p).
Proof.
  intros Hid. split; [|split; [|split]].
  - unfold getPostPath. now rewrite Hid.
  - unfold getPostSlug. now rewrite Hid.
  - split; [apply slug_again_only_if | apply slug_again_if].
  - intros Hmd. apply slug_again_if. left.
    destruct (ends_with ".md" (last_segment (getPostSlug p))) eqn:E;
      [|reflexivity].
    apply ends_with_last_segment in E. congruence.
Qed.

Lemma getPostSlug_idempotent_witness :
  (getPostSlug (with_id (entry_of_id "articles/my-post.md")
                  (getPostSlug (entry_of_id "articles/my-post.md")))
   = getPostSlug (entry_of_id "articles/my-post.md")) /\
  (getPostSlug (with_id (entry_of_id "a/.md")
                  (getPostSlug (entry_of_id "a/.md")))
   = getPostSlug (entry_of_id "a/.md")) /\
  (getPostSlug (entry_of_id "articles/my-post.md.md")
   = getPostSlug (entry_dated "articles/my-post.md.md" 0 Null)).
Proof.
  split; [|split].
  - apply (getPostSlug_idempotent (entry_of_id "articles/my-post.md")
             (entry_of_id "articles/my-post.md") eq_refl).
    reflexivity.
  - apply (proj1 (proj2 (proj2
             (getPostSlug_idempotent (entry_of_id "a/.md")
                (entry_of_id "a/.md") eq_refl)))).
    right. reflexivity.
  - apply (getPostSlug_idempotent (entry_of_id "articles/my-post.md.md")
             (entry_dated "articles/my-post.md.md" 0 Null) eq_refl).
Defined.

(** C6 as stated fails: a doubled [".md"] loses one suffix at each
    application. *)
Lemma getPostSlug_not_idempotent :
  let post := entry_of_id "articles/my-post.md.md" in
  getPostSlug post = "my-post.md" /\
  getPostSlug (with_id post (getPostSlug post)) = "my-post" /\
  getPostSlug (with_id post (getPostSlug post)) <> getPostSlug post.
Proof.
  vm_compute. repeat split; discriminate.
Qed.

(** ** The exact extent of idempotence *)

(** Deriving the slug of a slug gives the slug again exactly when the
    last segment of the slug does not end in [".md"] or is [".md"]. *)
Lemma slug_of_slug_iff (post : CollectionEntry) :
  getPostSlug (with_id post (getPostSlug post)) = getPostSlug post <->
  (ends_with ".md" (last_segment (getPostSlug post)) = false \/
   last_segment (getPostSlug post) = ".md").
Proof.
  split.
  - intros H. now apply slug_again_only_if.
  - intros H. now apply slug_again_if.
Qed.

(** C7. On every entry, [split] yields at least one segment, so [pop]
    is never [undefined], and [getPostPath] returns a string that begins
    with ["/blog/"]. *)
Theorem getPostPath_total (post : CollectionEntry) :
  split (id post) <> [] /\
  (exists seg, pop (split (id post)) = Some seg) /\
  (exists slug, getPostPath post = "/blog/" ++ slug) /\
  String.prefix "/blog/" (getPostPath post) = true.
Proof.
  repeat split.
  - apply split_nonempty.
  - exists (last_segment (id post)). apply pop_split.
  - eexists. reflexivity.
  - unfold getPostPath. cbn. destruct (or_else _ _); reflexivity.
Qed.

(** C9. [getPostPath] is the route prefix ["/blog/"] followed by
    [getPostSlug]. *)
Theorem getPostPath_getPostSlug (post : CollectionEntry) :
  getPostPath post = "/blog/" ++ getPostSlug post.
Proof.
  unfold getPostPath, getPostSlug. reflexivity.
Qed.

(** ** [SITE] *)

(** C10. The scheduling margin is 15 minutes in milliseconds, 900000. *)
Theorem scheduledPostMargin_value :
  scheduledPostMargin SITE = (15 * 60 * 1000)%Z /\
  scheduledPostMargin SITE = 900000%Z.
Proof.
  split; reflexivity.
Qed.

(** ** The schema of the collection *)

Lemma bind_Ok {A B : Type} (m : Parsed A) (k : A -> Parsed B) (b : B) :
  bind m k = Ok b -> exists a, m = Ok a /\ k a = Ok b.
Proof.
  destruct m as [a | issue]; simpl; [|discriminate].
  intros H. now exists a.
Qed.

Ltac bind_inv H :=
  let a := fresh "a" in
  let E := fresh "E" in
  apply bind_Ok in H as (a & E & H).

(** What a validated payload says about each key of the front matter. *)
Lemma blog_schema_Ok (fm : FrontMatter) (d : BlogData) :
  blog_schema fm = Ok d ->
  z_default z_string "Farhan" (field fm "author") = Ok (author d) /\
  z_date (field fm "pubDatetime") = Ok (pubDatetime d) /\
  z_optional_nullable z_date (field fm "modDatetime")
  = Ok (modDatetime d) /\
  z_string (field fm "title") = Ok (title d) /\
  z_optional z_boolean (field fm "featured") = Ok (featured d) /\
  z_optional z_boolean (field fm "draft") = Ok (draft d) /\
  z_default (z_array z_string) ["others"] (field fm "tags")
  = Ok (tags d) /\
  z_optional z_string (field fm "ogImage") = Ok (ogImage d) /\
  z_string (field fm "description") = Ok (description d) /\
  z_optional z_string (field fm "canonicalURL") = Ok (canonicalURL d) /\
  z_optional z_boolean (field fm "hideEditPost") = Ok (hideEditPost d) /\
  z_optional z_string (field fm "timezone") = Ok (timezone d).
Proof.
  unfold blog_schema. intros H.
  do 12 bind_inv H.
  injection H as <-. cbn.
  repeat (split; [assumption|]). assumption.
Qed.

Lemma z_string_Ok (v : Raw) (s : string) :
  z_string v = Ok s -> v = RString s.
Proof. destruct v; simpl; congruence. Qed.

Lemma z_date_Ok (v : Raw) (d : Date) :
  z_date v = Ok d -> v = RDate d.
Proof. destruct v; simpl; congruence. Qed.

Lemma parse_all_strings (l : list Raw) (r : list string) :
  parse_all z_string l = Ok r -> l = map RString r.
Proof.
  revert r. induction l as [|v l IH]; intros r H; simpl in H.
  - now injection H as <-.
  - bind_inv H. bind_inv H. injection H as <-.
    apply z_string_Ok in E. subst v. simpl. f_equal. now apply IH.
Qed.

Lemma parse_all_map_RString (r : list string) :
  parse_all z_string (map RString r) = Ok r.
Proof.
  induction r as [|s r IH]; simpl; [reflexivity | now rewrite IH].
Qed.

Lemma field_other (k : string) (v : Raw) (fm : FrontMatter) (key : string) :
  k <> key -> field ((k, v) :: fm) key = field fm key.
Proof.
  intros H. cbn [field]. apply String.eqb_neq in H. now rewrite H.
Qed.

(** C8 (amended). An entry whose front matter omits [tags] is loaded
    with [tags = ["others"]], which is not empty.  An entry whose front
    matter gives [tags] is loaded only if the key holds an array of
    strings, and keeps that list as it is; and every list of strings,
    the empty one included, is accepted when given under [tags]. *)
Theorem tags_default (ident : string) (fm : FrontMatter)
  (post : CollectionEntry) :
  load_entry ident fm = Ok post ->
  (field fm "tags" = RUndefined ->
   tags (data post) = ["others"] /\ tags (data post) <> []) /\
  (field fm "tags" <> RUndefined ->
   field fm "tags" = RArray (map RString (tags (data post)))) /\
  (forall l,
     load_entry ident (("tags", RArray (map RString l)) :: fm)
     = Ok (mkEntry ident (with_tags (data post) l))).
Proof.
  intros Hload. unfold load_entry in Hload.
  bind_inv Hload. injection Hload as <-. cbn [data].
  pose proof (blog_schema_Ok _ _ E)
    as (Ha & Hp & Hm & Ht & Hf & Hd & Hg & Ho & He & Hc & Hh & Hz).
  split; [|split].
  - intros Habsent. rewrite Habsent in Hg.
    cbn [z_default] in Hg. injection Hg as <-.
    split; [reflexivity | discriminate].
  - intros Hgiven.
    destruct (field fm "tags") as [| | b | n | s | t | l] eqn:Ef;
      cbn in Hg; try discriminate; [congruence|].
    now rewrite (parse_all_strings _ _ Hg).
  - intros l. unfold load_entry, blog_schema.
    change (field (("tags", RArray (map RString l)) :: fm) "tags")
      with (RArray (map RString l)).
    rewrite !(field_other "tags") by discriminate.
    rewrite Ha, Hp, Hm, Ht, Hf, Hd, Ho, He, Hc, Hh, Hz.
    cbn [bind z_default z_array].
    rewrite parse_all_map_RString. reflexivity.
Qed.

Lemma tags_default_witness :
  tags (data (entry_of_id "my-post")) = ["others"] /\
  load_entry "my-post" (("tags", RArray []) :: sample_front_matter)
  = Ok (mkEntry "my-post" (with_tags sample_data [])) /\
  field (("tags", RArray [RString "astro"]) :: sample_front_matter) "tags"
  = RArray (map RString ["astro"]).
Proof.
  pose proof (tags_default "my-post" sample_front_matter
                (entry_of_id "my-post") eq_refl) as (Hdef & _ & Hany).
  split; [|split].
  - apply Hdef. reflexivity.
  - exact (Hany []).
  - apply (tags_default "my-post"
             (("tags", RArray [RString "astro"]) :: sample_front_matter)
             (mkEntry "my-post" (with_tags sample_data ["astro"])) eq_refl).
    discriminate.
Defined.

(** C8 as stated fails: an explicit empty [tags] list validates and is
    kept, so a loaded entry can have no tag. *)
Lemma tags_explicit_empty :
  let fm := ("tags", RArray []) :: sample_front_matter in
  exists post,
    load_entry "my-post" fm = Ok post /\ tags (data post) = [].
Proof.
  eexists. split; reflexivity.
Qed.

(** ** The RSS feed *)

(** C2 (amended). The item emitted for a post carries [modDatetime]
    when the entry has one and [pubDatetime] otherwise.  This is the
    later of the two dates when [modDatetime] is absent or not earlier
    than [pubDatetime]; when [modDatetime] is present and earlier, it is
    [modDatetime], the earlier date, that is used. *)
Theorem GET_pubDate
  (sorter : list CollectionEntry -> list CollectionEntry)
  (posts : list CollectionEntry) (i : nat) (post : CollectionEntry) :
  nth_error (sorter posts) i = Some post ->
  exists item,
    nth_error (Rss.items (GET sorter posts)) i = Some item /\
    Rss.link item = getPostPath post /\
    Rss.pubDate item =
      nullish_coalesce (modDatetime (data post)) (pubDatetime (data post)) /\
    (match modDatetime (data post) with
     | Value m =>
         ((pubDatetime (data post) <= m)%Z ->
          Rss.pubDate item = later_date post) /\
         ((m < pubDatetime (data post))%Z ->
          Rss.pubDate item = m /\ Rss.pubDate item <> later_date post)
     | Undefined | Null => Rss.pubDate item = later_date post
     end).
Proof.
  intros Hnth. exists (GET_item post). split.
  - cbn [GET Rss.items]. now apply map_nth_error.
  - cbn [GET_item Rss.link Rss.pubDate]. unfold new_Date, later_date.
    repeat split.
    destruct (modDatetime (data post)) as [| |m]; cbn [nullish_coalesce];
      [reflexivity | reflexivity |].
    split; intros H; [|split]; lia.
Qed.

Lemma GET_pubDate_witness :
  let post :=
    entry_dated "my-post" 1704067200000 (Value 1717200000000%Z) in
  exists item,
    nth_error (Rss.items (GET (getSortedPosts (fun _ => true)) [post])) 0
    = Some item /\
    Rss.pubDate item = 1717200000000%Z /\
    Rss.pubDate item = later_date post.
Proof.
  intros post.
  destruct (GET_pubDate (getSortedPosts (fun _ => true)) [post] 0 post
              eq_refl)
    as (item & Hnth & _ & Hdate & Hlater & _).
  exists item. split; [exact Hnth|]. split; [exact Hdate|].
  apply Hlater. vm_compute. discriminate.
Defined.

(** C2 as stated fails: a post modified (2024-01-01) before it is
    published (2024-06-01) is emitted with the modification date, not
    with the later of the two. *)
Lemma rss_date_not_later :
  let post :=
    entry_dated "my-post" 1717200000000 (Value 1704067200000%Z) in
  Rss.items (GET (getSortedPosts (fun _ => true)) [post])
  = [GET_item post] /\
  Rss.pubDate (GET_item post) = 1704067200000%Z /\
  later_date post = 1717200000000%Z /\
  Rss.pubDate (GET_item post) <> later_date post.
Proof.
  vm_compute. repeat split; discriminate.
Qed.

(** ** The sorter *)

Lemma insert_post_Forall (P : CollectionEntry -> Prop)
  (x : CollectionEntry) (l : list CollectionEntry) :
  P x -> Forall P l -> Forall P (insert_post x l).
Proof.
  intros Hx Hl. induction Hl as [|y l Hy Hl IH]; simpl.
  - now constructor.
  - destruct (effective_date y <=? effective_date x)%Z;
      repeat constructor; assumption.
Qed.

Lemma insert_post_sorted (x : CollectionEntry) (l : list CollectionEntry) :
  StronglySorted date_desc l -> StronglySorted date_desc (insert_post x l).
Proof.
  intros Hl. induction Hl as [|y l Hl IH Hy]; simpl.
  - repeat constructor.
  - destruct (effective_date y <=? effective_date x)%Z eqn:E.
    + apply Z.leb_le in E. constructor.
      * now constructor.
      * constructor; [exact E|].
        eapply Forall_impl; [|exact Hy].
        unfold date_desc. intros z Hz. lia.
    + apply Z.leb_gt in E. constructor; [exact IH|].
      apply insert_post_Forall; [|exact Hy].
      unfold date_desc. lia.
Qed.

Lemma insert_post_perm (x : CollectionEntry) (l : list CollectionEntry) :
  Permutation (x :: l) (insert_post x l).
Proof.
  induction l as [|y l IH]; simpl; [reflexivity|].
  destruct (effective_date y <=? effective_date x)%Z; [reflexivity|].
  rewrite perm_swap. now constructor.
Qed.

(** Inserting an entry does not move it past an entry of the same
    date. *)
Lemma insert_post_dated (d : Date) (x : CollectionEntry)
  (l : list CollectionEntry) :
  dated d (insert_post x l) = dated d (x :: l).
Proof.
  induction l as [|y l IH]; [reflexivity|].
  cbn [insert_post].
  destruct (effective_date y <=? effective_date x)%Z eqn:E; [reflexivity|].
  apply Z.leb_gt in E.
  unfold dated in *. cbn [filter] in *. rewrite IH.
  destruct (effective_date y =? d)%Z eqn:Ey;
    destruct (effective_date x =? d)%Z eqn:Ex; try reflexivity.
  apply Z.eqb_eq in Ey, Ex. lia.
Qed.

Lemma sort_posts_sorted (l : list CollectionEntry) :
  StronglySorted date_desc (sort_posts l).
Proof.
  induction l as [|x l IH]; simpl; [constructor|].
  now apply insert_post_sorted.
Qed.

Lemma sort_posts_perm (l : list CollectionEntry) :
  Permutation l (sort_posts l).
Proof.
  induction l as [|x l IH]; simpl; [reflexivity|].
  rewrite <- insert_post_perm. now constructor.
Qed.

Lemma sort_posts_dated (d : Date) (l : list CollectionEntry) :
  dated d (sort_posts l) = dated d l.
Proof.
  induction l as [|x l IH]; [reflexivity|].
  cbn [sort_posts]. rewrite insert_post_dated.
  unfold dated in *. cbn [filter]. now rewrite IH.
Qed.

Lemma filter_all {A : Type} (l : list A) : filter (fun _ => true) l = l.
Proof.
  induction l as [|x l IH]; simpl; [reflexivity | now rewrite IH].
Qed.

(** C3. The sorter returns the entries it keeps ordered by effective
    date ([modDatetime] if present, else [pubDatetime]), most recent
    first, and the entries of one effective date come out in their input
    order; with no filter, these are all the entries of the input. *)
Theorem getSortedPosts_sorted_stable
  (keep : CollectionEntry -> bool) (posts : list CollectionEntry) :
  StronglySorted date_desc (getSortedPosts keep posts) /\
  Permutation (filter keep posts) (getSortedPosts keep posts) /\
  (forall d, dated d (getSortedPosts keep posts)
             = dated d (filter keep posts)) /\
  Permutation posts (getSortedPosts (fun _ => true) posts) /\
  (forall d, dated d (getSortedPosts (fun _ => true) posts)
             = dated d posts).
Proof.
  unfold getSortedPosts. rewrite filter_all. repeat split.
  - apply sort_posts_sorted.
  - apply sort_posts_perm.
  - intros d. apply sort_posts_dated.
  - apply sort_posts_perm.
  - intros d. apply sort_posts_dated.
Qed.

(** The examples of the specification: two publish dates, and a
    modification date that takes over. *)
Example getSortedPosts_two_dates :
  let jan := entry_dated "jan" 1704067200000 Undefined in
  let mar := entry_dated "mar" 1709251200000 Undefined in
  getSortedPosts (fun _ => true) [jan; mar] = [mar; jan].
Proof. reflexivity. Qed.

Example getSortedPosts_modified :
  let feb := entry_dated "feb" 1706745600000 Undefined in
  let jan := entry_dated "jan" 1704067200000 (Value 1717200000000%Z) in
  effective_date jan = 1717200000000%Z /\
  getSortedPosts (fun _ => true) [feb; jan] = [jan; feb].
Proof. split; reflexivity. Qed.

Example getSortedPosts_ties :
  let a := entry_dated "a" 1704067200000 Undefined in
  let b := entry_dated "b" 1704067200000 Null in
  let c := entry_dated "c" 1709251200000 Undefined in
  getSortedPosts (fun _ => true) [a; b; c] = [c; a; b] /\
  getSortedPosts (fun _ => true) [b; c; a] = [c; b; a].
Proof. split; reflexivity. Qed.

Example getSortedPosts_filtered :
  let now := 1704067200000%Z in
  let soon := entry_dated "soon" (now + 900000) Undefined in
  let late := entry_dated "late" (now + 900001) Undefined in
  getSortedPosts (postFilter now) [late; soon] = [soon].
Proof. reflexivity. Qed.

(** * Further properties of the code *)

(** ** Segments *)

Lemma append_empty_r (s : string) : s ++ "" = s.
Proof.
  induction s as [|c s IH]; simpl; [reflexivity | now rewrite IH].
Qed.

Lemma split_cons (c : ascii) (s : string) :
  split (String c s) =
  match split s with
  | [] => []
  | seg :: rest =>
      if Ascii.eqb c slash then "" :: seg :: rest else String c seg :: rest
  end.
Proof.
  unfold split. cbn [split_ne].
  destruct (split_ne s) as [seg rest].
  destruct (Ascii.eqb c slash); reflexivity.
Qed.

(** Joining the segments with ["/"] gives the string back; no segment
    holds a ['/']; and there is one segment more than there are
    separators. *)
Theorem split_concat (s : string) :
  String.concat "/" (split s) = s /\
  Forall (fun seg => contains slash seg = false) (split s) /\
  List.length (split s) = S (occurrences slash s).
Proof.
  induction s as [|c s (IHc & IHf & IHl)].
  - repeat split. repeat constructor.
  - rewrite split_cons.
    pose proof (split_nonempty s) as Hne.
    destruct (split s) as [|seg rest]; [congruence|]. clear Hne.
    cbn [occurrences].
    destruct (Ascii.eqb c slash) eqn:Hc.
    + apply Ascii.eqb_eq in Hc. subst c. split; [|split].
      * change (String.concat "/" ("" :: seg :: rest))
          with (String slash (String.concat "/" (seg :: rest))).
        now rewrite IHc.
      * constructor; [reflexivity | exact IHf].
      * simpl in *. now rewrite IHl.
    + split; [|split].
      * rewrite <- IHc. now destruct rest.
      * inversion IHf as [|? ? Hseg Hrest]; subst.
        constructor; [|exact Hrest].
        simpl. now rewrite Hc, Hseg.
      * simpl in *. exact IHl.
Qed.

(** ** The slug as a part of the identifier *)

Lemma replace_md_decompose (s : string) :
  s = replace_md s \/ s = replace_md s ++ ".md".
Proof.
  destruct (ends_with ".md" s) eqn:E.
  - right. apply ends_with_spec in E as [t ->].
    now rewrite replace_md_append.
  - left. now rewrite replace_md_other.
Qed.

Lemma path_is_prefixed_slug (post : CollectionEntry) :
  getPostPath post = "/blog/" ++ getPostSlug post.
Proof. reflexivity. Qed.

(** The slug is empty for the empty identifier only, and so is the
    path ["/blog/"]. *)
Theorem getPostSlug_empty (post : CollectionEntry) :
  (getPostSlug post = "" <-> id post = "") /\
  (getPostPath post = "/blog/" <-> id post = "").
Proof.
  assert (H : getPostSlug post = "" <-> id post = "").
  { split.
    - intros E.
      destruct (getPostSlug_cases post) as [(_ & Hne & _) | (Hfull & _)];
        [contradiction | congruence].
    - intros E. unfold getPostSlug. rewrite E. reflexivity. }
  split; [exact H|].
  rewrite <- H, path_is_prefixed_slug. split.
  - intros E. now injection E.
  - intros ->. reflexivity.
Qed.

(** The slug is a contiguous part of the identifier: the identifier is
    some prefix, the slug, and nothing or [".md"]; so the slug is never
    longer than the identifier. *)
Theorem getPostSlug_part (post : CollectionEntry) :
  (exists pre suf,
     id post = pre ++ getPostSlug post ++ suf /\
     (suf = "" \/ suf = ".md")) /\
  String.length (getPostSlug post) <= String.length (id post).
Proof.
  assert (H : exists pre suf,
             id post = pre ++ getPostSlug post ++ suf /\
             (suf = "" \/ suf = ".md")).
  { destruct (getPostSlug_cases post) as [(Hslug & _ & _) | (Hfull & _)].
    - destruct (last_segment_suffix (id post)) as [pre Hpre].
      rewrite Hslug.
      destruct (replace_md_decompose (last_segment (id post))) as [E | E].
      + exists pre, "". rewrite append_empty_r, <- E. now split; [|left].
      + exists pre, ".md". rewrite <- E. now split; [|right].
    - exists "", "". rewrite Hfull, append_empty_r. now split; [|left]. }
  split; [exact H|].
  destruct H as (pre & suf & E & _).
  rewrite E, !length_append. lia.
Qed.

(** Outside the fallback the slug is a single route segment: it is not
    empty and holds no ['/']. *)
Theorem getPostSlug_single_segment (post : CollectionEntry) :
  strip_md_suffix (last_segment (id post)) <> "" ->
  getPostSlug post <> "" /\
  contains slash (getPostSlug post) = false /\
  split (getPostSlug post) = [getPostSlug post].
Proof.
  intros Hne.
  assert (Hsep : getPostSlug post <> "" /\
                 contains slash (getPostSlug post) = false).
  { destruct (getPostSlug_cases post) as [(_ & H1 & H2) | (_ & Hseg)].
    - now split.
    - exfalso. apply Hne. rewrite <- replace_md_strip.
      apply replace_md_empty. exact Hseg. }
  destruct Hsep as [H1 H2]. repeat split; try assumption.
  now apply split_no_sep.
Qed.

Lemma getPostSlug_single_segment_witness :
  split (getPostSlug (entry_of_id "articles/2024/my-post.md"))
  = [getPostSlug (entry_of_id "articles/2024/my-post.md")].
Proof.
  apply (getPostSlug_single_segment
           (entry_of_id "articles/2024/my-post.md")).
  vm_compute. discriminate.
Defined.

(** A slug that holds a ['/'] is the full identifier of the fallback. *)
Theorem getPostSlug_with_separator (post : CollectionEntry) :
  contains slash (getPostSlug post) = true ->
  getPostSlug post = id post /\
  (last_segment (id post) = "" \/ last_segment (id post) = ".md").
Proof.
  intros H.
  destruct (getPostSlug_cases post) as [(_ & _ & Hsep) | Hfull];
    [congruence | exact Hfull].
Qed.

Lemma getPostSlug_with_separator_witness :
  getPostSlug (entry_of_id "articles/") = "articles/".
Proof.
  apply (getPostSlug_with_separator (entry_of_id "articles/")).
  reflexivity.
Defined.

(** Directories and the [".md"] suffix do not tell entries apart: two
    entries whose last segments agree once a trailing [".md"] is
    removed, and are not empty, have the same slug and the same path. *)
Theorem getPostPath_collision (p q : CollectionEntry) :
  strip_md_suffix (last_segment (id p))
  = strip_md_suffix (last_segment (id q)) ->
  strip_md_suffix (last_segment (id p)) <> "" ->
  getPostSlug p = getPostSlug q /\ getPostPath p = getPostPath q.
Proof.
  intros Heq Hne.
  assert (H : getPostSlug p = getPostSlug q).
  { rewrite !getPostSlug_last_segment, <- Heq.
    now rewrite (eqb_empty_false _ Hne). }
  split; [exact H|].
  now rewrite !path_is_prefixed_slug, H.
Qed.

Lemma getPostPath_collision_witness :
  id (entry_of_id "2023/my-post.md") <> id (entry_of_id "drafts/my-post") /\
  getPostPath (entry_of_id "2023/my-post.md")
  = getPostPath (entry_of_id "drafts/my-post").
Proof.
  split; [discriminate|].
  apply (getPostPath_collision (entry_of_id "2023/my-post.md")
           (entry_of_id "drafts/my-post"));
    [reflexivity | vm_compute; discriminate].
Defined.

(** Among identifiers with no ['/'] and no trailing [".md"], distinct
    identifiers have distinct paths. *)
Theorem getPostPath_injective (p q : CollectionEntry) :
  contains slash (id p) = false -> ends_with ".md" (id p) = false ->
  contains slash (id q) = false -> ends_with ".md" (id q) = false ->
  getPostPath p = getPostPath q ->
  id p = id q.
Proof.
  assert (H : forall r, contains slash (id r) = false ->
                        ends_with ".md" (id r) = false ->
                        getPostPath r = "/blog/" ++ id r).
  { intros r Hs Hm. rewrite getPostPath_last_segment.
    rewrite (last_segment_no_sep _ Hs).
    rewrite <- replace_md_strip, (replace_md_other _ Hm).
    now destruct (String.eqb (id r) ""). }
  intros Hps Hpm Hqs Hqm E.
  rewrite (H p Hps Hpm), (H q Hqs Hqm) in E.
  now injection E.
Qed.

Lemma getPostPath_injective_witness :
  id (entry_of_id "my-post") = id (entry_dated "my-post" 0 Null).
Proof.
  apply (getPostPath_injective (entry_of_id "my-post")
           (entry_dated "my-post" 0 Null)); reflexivity.
Defined.

(** ** Validation of the front matter *)

(** The required keys: a payload validates only if [title] and
    [description] are strings and [pubDatetime] is a date, and it
    carries exactly these values; a front matter that lacks one of them
    is rejected. *)
Theorem blog_schema_required (fm : FrontMatter) :
  (forall d, blog_schema fm = Ok d ->
     field fm "title" = RString (title d) /\
     field fm "description" = RString (description d) /\
     field fm "pubDatetime" = RDate (pubDatetime d)) /\
  (field fm "title" = RUndefined \/
   field fm "description" = RUndefined \/
   field fm "pubDatetime" = RUndefined ->
   exists issue, blog_schema fm = Invalid issue).
Proof.
  assert (H : forall d, blog_schema fm = Ok d ->
     field fm "title" = RString (title d) /\
     field fm "description" = RString (description d) /\
     field fm "pubDatetime" = RDate (pubDatetime d)).
  { intros d Hd. apply blog_schema_Ok in Hd.
    destruct Hd as (_ & Hp & _ & Ht & _ & _ & _ & _ & Hd & _).
    split; [|split].
    - now apply z_string_Ok.
    - now apply z_string_Ok.
    - now apply z_date_Ok. }
  split; [exact H|].
  intros Hmiss. destruct (blog_schema fm) as [d | issue] eqn:E.
  - exfalso. destruct (H d eq_refl) as (Ht & Hd & Hp).
    destruct Hmiss as [M | [M | M]]; congruence.
  - now exists issue.
Qed.

Lemma blog_schema_required_witness :
  exists issue,
    blog_schema [("title", RString "My post");
                 ("pubDatetime", RDate 1704067200000)]
    = Invalid issue.
Proof.
  apply (blog_schema_required [("title", RString "My post");
                               ("pubDatetime", RDate 1704067200000)]).
  right. left. reflexivity.
Defined.

(** The [tags] of a validated payload: the default [["others"]] when the
    key is absent, and otherwise the key holds an array of strings, which
    is kept as it is, in its order. *)
Theorem tags_of_validated_payload (fm : FrontMatter) (d : BlogData) :
  blog_schema fm = Ok d ->
  (field fm "tags" = RUndefined /\ tags d = ["others"]) \/
  field fm "tags" = RArray (map RString (tags d)).
Proof.
  intros H. apply blog_schema_Ok in H.
  destruct H as (_ & _ & _ & _ & _ & _ & Ht & _).
  destruct (field fm "tags") as [| | b | n | s | t | l] eqn:E;
    cbn in Ht; try discriminate.
  - left. split; [reflexivity | congruence].
  - right. now rewrite (parse_all_strings _ _ Ht).
Qed.

Lemma tags_of_validated_payload_witness :
  let fm := ("tags", RArray [RString "astro"; RString "astro"])
            :: sample_front_matter in
  let d := mkBlogData "Farhan" 1704067200000 Undefined "My post" None None
             ["astro"; "astro"] None "A post" None None None in
  (field fm "tags" = RUndefined /\ tags d = ["others"]) \/
  field fm "tags" = RArray (map RString (tags d)).
Proof.
  intros fm d. apply (tags_of_validated_payload fm d). reflexivity.
Defined.

(** The [author] of a validated payload: ["Farhan"] when the key is
    absent, and otherwise the string the key holds. *)
Theorem blog_schema_author (fm : FrontMatter) (d : BlogData) :
  blog_schema fm = Ok d ->
  (field fm "author" = RUndefined /\ author d = "Farhan") \/
  field fm "author" = RString (author d).
Proof.
  intros H. apply blog_schema_Ok in H. destruct H as (Ha & _).
  destruct (field fm "author") as [| | b | n | s | t | l] eqn:E;
    cbn in Ha; try discriminate.
  - left. split; [reflexivity | congruence].
  - right. congruence.
Qed.

Lemma blog_schema_author_witness :
  (field sample_front_matter "author" = RUndefined /\
   author sample_data = "Farhan") \/
  field sample_front_matter "author" = RString (author sample_data).
Proof.
  apply (blog_schema_author sample_front_matter sample_data). reflexivity.
Defined.

(** A key the schema does not read changes nothing: the front matter
    validates to the same payload, or fails with the same issue, with or
    without it. *)
Theorem blog_schema_unknown_key (k : string) (v : Raw) (fm : FrontMatter) :
  ~ In k blog_keys ->
  blog_schema ((k, v) :: fm) = blog_schema fm.
Proof.
  intros Hk.
  assert (H : forall key, In key blog_keys ->
                          field ((k, v) :: fm) key = field fm key).
  { intros key Hin. apply field_other. intros ->. contradiction. }
  unfold blog_schema.
  rewrite !H by (unfold blog_keys; simpl; tauto).
  reflexivity.
Qed.

Lemma blog_schema_unknown_key_witness :
  blog_schema (("layout", RString "post") :: sample_front_matter)
  = blog_schema sample_front_matter.
Proof.
  apply (blog_schema_unknown_key "layout" (RString "post")
           sample_front_matter).
  unfold blog_keys. simpl. intros H.
  repeat (destruct H as [H | H]; [discriminate H|]). exact H.
Defined.

(** ** From the front matter to the feed *)

(** The date of the feed item of a loaded entry, read off its front
    matter: the [modDatetime] key when it holds a date, the
    [pubDatetime] key when [modDatetime] is absent or [null]. *)
Theorem GET_item_of_front_matter (ident : string) (fm : FrontMatter)
  (post : CollectionEntry) :
  load_entry ident fm = Ok post ->
  id post = ident /\
  exists p,
    field fm "pubDatetime" = RDate p /\
    match field fm "modDatetime" with
    | RDate m => Rss.pubDate (GET_item post) = m
    | RUndefined | RNull => Rss.pubDate (GET_item post) = p
    | _ => False
    end.
Proof.
  intros H. unfold load_entry in H. bind_inv H. injection H as <-.
  split; [reflexivity|].
  apply blog_schema_Ok in E.
  destruct E as (_ & Hp & Hm & _).
  exists (pubDatetime a). split; [now apply z_date_Ok|].
  cbn [GET_item Rss.pubDate data]. unfold new_Date.
  destruct (field fm "modDatetime") as [| | b | n | s | t | l];
    cbn in Hm; try discriminate; injection Hm as <-; reflexivity.
Qed.

Lemma GET_item_of_front_matter_witness :
  let fm := ("modDatetime", RNull) :: sample_front_matter in
  let post := entry_dated "my-post" 1704067200000 Null in
  id post = "my-post" /\
  exists p,
    field fm "pubDatetime" = RDate p /\ Rss.pubDate (GET_item post) = p.
Proof.
  intros fm post.
  exact (GET_item_of_front_matter "my-post" fm post eq_refl).
Defined.

(** ** The feed as a whole *)

(** When the sorter returns the kept posts in some order, the feed has
    exactly one item per kept post and no other item. *)
Theorem GET_items_complete
  (sorter : list CollectionEntry -> list CollectionEntry)
  (keep : CollectionEntry -> bool) (posts : list CollectionEntry) :
  Permutation (filter keep posts) (sorter posts) ->
  List.length (Rss.items (GET sorter posts))
  = List.length (filter keep posts) /\
  (forall post, In post posts -> keep post = true ->
     In (GET_item post) (Rss.items (GET sorter posts))) /\
  (forall item, In item (Rss.items (GET sorter posts)) ->
     exists post, In post posts /\ keep post = true /\
                  item = GET_item post).
Proof.
  intros Hperm. cbn [GET Rss.items]. split; [|split].
  - rewrite length_map. symmetry. now apply Permutation_length.
  - intros post Hin Hkeep. apply in_map.
    apply (Permutation_in _ Hperm). apply filter_In. now split.
  - intros item Hin. apply in_map_iff in Hin as (post & <- & Hin).
    apply (Permutation_in _ (Permutation_sym Hperm)) in Hin.
    apply filter_In in Hin as [Hin Hkeep]. now exists post.
Qed.

Lemma GET_items_complete_witness :
  let now := 1704067200000%Z in
  let soon := entry_dated "soon" (now + 900000) Undefined in
  let late := entry_dated "late" (now + 900001) Undefined in
  List.length
    (Rss.items (GET (getSortedPosts (postFilter now)) [late; soon]))
  = List.length (filter (postFilter now) [late; soon]) /\
  In (GET_item soon)
    (Rss.items (GET (getSortedPosts (postFilter now)) [late; soon])).
Proof.
  intros now soon late.
  pose proof (GET_items_complete (getSortedPosts (postFilter now))
                (postFilter now) [late; soon]
                (sort_posts_perm (filter (postFilter now) [late; soon])))
    as (Hlen & Hin & _).
  split; [exact Hlen|].
  apply Hin; [right; left; reflexivity | reflexivity].
Defined.

(** When the sorter returns its posts most recent effective date first,
    the items of the feed are in non-increasing order of [pubDate]. *)
Theorem GET_items_sorted
  (sorter : list CollectionEntry -> list CollectionEntry)
  (posts : list CollectionEntry) :
  StronglySorted date_desc (sorter posts) ->
  StronglySorted pubDate_desc (Rss.items (GET sorter posts)).
Proof.
  cbn [GET Rss.items]. induction 1 as [|x l Hl IH Hx]; simpl.
  - constructor.
  - constructor; [exact IH|].
    apply Forall_map. eapply Forall_impl; [|exact Hx].
    intros y Hy. exact Hy.
Qed.

Lemma GET_items_sorted_witness :
  let jan := entry_dated "jan" 1704067200000 Undefined in
  let mar := entry_dated "mar" 1709251200000 Undefined in
  StronglySorted pubDate_desc
    (Rss.items (GET (getSortedPosts (fun _ => true)) [jan; mar])).
Proof.
  intros jan mar.
  apply (GET_items_sorted (getSortedPosts (fun _ => true)) [jan; mar]).
  apply sort_posts_sorted.
Defined.

(** ** The sitemap filter *)

Lemma append_assoc (a b c : string) : (a ++ b) ++ c = a ++ (b ++ c).
Proof.
  induction a as [|x a IH]; simpl; [reflexivity | now rewrite IH].
Qed.

Lemma append_char_cancel (c : ascii) (a b : string) :
  a ++ String c "" = b ++ String c "" -> a = b.
Proof.
  revert b. induction a as [|x a IH]; intros [|y b] H; simpl in H.
  - reflexivity.
  - injection H as _ H. destruct b; discriminate H.
  - injection H as _ H. destruct a; discriminate H.
  - injection H as -> H. f_equal. now apply IH.
Qed.

Lemma last_segment_after_sep (pre s : string) :
  last_segment (pre ++ String slash s) = last_segment s.
Proof.
  induction pre as [|c pre IH].
  - cbn [append last_segment]. rewrite Ascii.eqb_refl.
    destruct (contains slash s) eqn:E; [reflexivity|].
    now rewrite last_segment_no_sep.
  - cbn [append last_segment]. rewrite contains_append. simpl.
    rewrite orb_true_r. exact IH.
Qed.

(** Fed the URL of a post page, that is a base, the path of the post
    and a closing ['/'], the sitemap filter drops the page exactly when
    the slug of the post is ["archives"]. *)
Theorem sitemap_filter_post (base : string) (post : CollectionEntry) :
  sitemap_filter (base ++ getPostPath post ++ "/") = false <->
  getPostSlug post = "archives".
Proof.
  unfold sitemap_filter. rewrite negb_false_iff, path_is_prefixed_slug.
  split.
  - intros H. apply ends_with_spec in H as [t Ht].
    replace (base ++ ("/blog/" ++ getPostSlug post) ++ "/")
      with (((base ++ "/blog") ++ String slash (getPostSlug post))
            ++ String slash "") in Ht
      by (now rewrite !append_assoc).
    replace (t ++ "/blog/archives/")
      with (((t ++ "/blog") ++ String slash "archives") ++ String slash "")
      in Ht by (now rewrite !append_assoc).
    apply append_char_cancel in Ht.
    apply (f_equal last_segment) in Ht.
    rewrite !last_segment_after_sep in Ht.
    change (last_segment "archives") with "archives" in Ht.
    destruct (getPostSlug_cases post) as [(_ & _ & Hsep) | (Hfull & Hseg)].
    + now rewrite (last_segment_no_sep _ Hsep) in Ht.
    + exfalso. rewrite Hfull in Ht. rewrite Ht in Hseg.
      destruct Hseg; discriminate.
  - intros ->. apply ends_with_append. reflexivity.
Qed.
